(** * The exported entry point of the ImGui test application

    A model of [example_imgui_lib/imgui_testapp_api.h]: the header is run
    through a small C preprocessor (macro table, include-once set, output
    token stream), and the resulting token stream is read back as a list of
    function declarations.  The call that the header declares is defined
    outside the header; module [RunLoop] gives it the behaviour the
    specification describes. *)

From stdpp Require Import gmap strings list.

Local Open Scope string_scope.
Local Open Scope list_scope.

(** ** Tokens and the preprocessor state *)

Inductive token :=
| Tident (s : string)   (* identifier or keyword *)
| Tstring (s : string)  (* string literal, quotes stripped *)
| Tnumber (z : Z)       (* preprocessing number *)
| Tlparen
| Trparen
| Tcomma
| Tsemi.

#[global] Instance token_eq_dec : EqDecision token.
Proof. solve_decision. Defined.

Record pp_state := PPState {
  macros : gmap string (list token);  (* object-like macros in force *)
  once   : gset string;               (* files that said #pragma once *)
  out    : list token                 (* tokens handed to the compiler *)
}.

Inductive pp_error :=
| Redefined (name : string).  (* #define of a name with another body *)

(** The preprocessor threads its state through every directive and may stop
    with an error. *)
Definition PP (A : Type) : Type := pp_state -> pp_error + (A * pp_state).

Definition pp_ret {A} (a : A) : PP A := fun st => inr (a, st).

Definition pp_bind {A B} (m : PP A) (k : A -> PP B) : PP B :=
  fun st => match m st with
            | inl e => inl e
            | inr (a, st') => k a st'
            end.

#[global] Instance pp_mret : MRet PP := @pp_ret.
#[global] Instance pp_mbind : MBind PP := fun A B k m => pp_bind m k.

(** ** Macro expansion

    An identifier that names a macro is replaced by the macro's body, and the
    body is scanned again with that name hidden.  Every level of nesting hides
    one more macro name, so [S (size M)] levels are enough for any table. *)
Fixpoint expand (fuel : nat) (M : gmap string (list token))
    (hide : gset string) (ts : list token) : list token :=
  match fuel with
  | O => ts
  | S n =>
      ts ≫= (fun t =>
        match t with
        | Tident s =>
            if decide (s ∈ hide) then [t]
            else match M !! s with
                 | Some body => expand n M ({[s]} ∪ hide) body
                 | None => [t]
                 end
        | _ => [t]
        end)
  end.

Definition expand_line (M : gmap string (list token)) (ts : list token)
    : list token :=
  expand (S (size M)) M ∅ ts.

(** ** Directives *)

(** [defined(m)] inside an [#if]. *)
Definition defined (m : string) : PP bool :=
  fun st => inr (bool_decide (is_Some (macros st !! m)), st).

(** [#define m body]; repeating a definition is accepted only with the same
    body. *)
Definition define (m : string) (body : list token) : PP unit :=
  fun st =>
    match macros st !! m with
    | Some old =>
        if decide (old = body) then inr (tt, st) else inl (Redefined m)
    | None =>
        inr (tt, PPState (<[m := body]> (macros st)) (once st) (out st))
    end.

(** [#pragma once] in file [file]. *)
Definition pragma_once (file : string) : PP unit :=
  fun st => inr (tt, PPState (macros st) ({[file]} ∪ once st) (out st)).

(** A line of program text: macro-expanded and appended to the output. *)
Definition text (ts : list token) : PP unit :=
  fun st =>
    inr (tt, PPState (macros st) (once st)
                     (out st ++ expand_line (macros st) ts)).

(** [#include "file"], where [content] is what the file holds. *)
Definition include (file : string) (content : PP unit) : PP unit :=
  fun st => if decide (file ∈ once st) then inr (tt, st) else content st.

(** ** The header *)

Definition this_file : string := "imgui_testapp_api.h".

Definition IMGUI_TESTAPP_API : string := "IMGUI_TESTAPP_API".

Definition extern_C : list token := [Tident "extern"; Tstring "C"].

(* __declspec(dllexport) *)
Definition declspec_dllexport : list token :=
  [Tident "__declspec"; Tlparen; Tident "dllexport"; Trparen].

(* __attribute__((visibility("default"))) *)
Definition attribute_visibility_default : list token :=
  [Tident "__attribute__"; Tlparen; Tlparen; Tident "visibility"; Tlparen;
   Tstring "default"; Trparen; Trparen; Trparen].

(* int imgui_testapp_run(void); *)
Definition imgui_testapp_run_signature : list token :=
  [Tident "int"; Tident "imgui_testapp_run"; Tlparen; Tident "void";
   Trparen; Tsemi].

Definition imgui_testapp_api_h : PP unit :=
  pragma_once this_file ;;
  (win32 ← defined "_WIN32";
   if win32 : bool then
     define IMGUI_TESTAPP_API (extern_C ++ declspec_dllexport)
   else
     gnuc ← defined "__GNUC__";
     clang ← defined "__clang__";
     if gnuc || clang then
       define IMGUI_TESTAPP_API (extern_C ++ attribute_visibility_default)
     else
       define IMGUI_TESTAPP_API extern_C) ;;
  text (Tident IMGUI_TESTAPP_API :: imgui_testapp_run_signature).

(** A translation unit starts from the macros the toolchain predefines. *)
Definition start (predefined : gmap string (list token)) : pp_state :=
  PPState predefined ∅ [].

(** The header included [n] times in a row. *)
Fixpoint include_times (n : nat) : PP unit :=
  match n with
  | O => mret tt
  | S k => include this_file imgui_testapp_api_h ;; include_times k
  end.

(** ** Reading the output back as declarations

    What the compiler sees after preprocessing: a sequence of function
    declarations, each with an optional linkage specification, an optional
    export marker, a return type, a name and a parameter list. *)

Inductive linkage := C_linkage | Cxx_linkage.

Inductive export_marker :=
| DllExport          (* __declspec(dllexport) *)
| VisibilityDefault. (* __attribute__((visibility("default"))) *)

Inductive ctype :=
| Cint   (* int, which is signed int *)
| Cvoid.

Record fundecl := FunDecl {
  fd_linkage : linkage;
  fd_marker  : option export_marker;
  fd_ret     : ctype;
  fd_name    : string;
  fd_params  : list ctype
}.

Fixpoint strip_prefix (p ts : list token) : option (list token) :=
  match p, ts with
  | [], _ => Some ts
  | a :: p', b :: ts' => if decide (a = b) then strip_prefix p' ts' else None
  | _ :: _, [] => None
  end.

Definition parse_linkage (ts : list token) : linkage * list token :=
  match strip_prefix extern_C ts with
  | Some rest => (C_linkage, rest)
  | None => (Cxx_linkage, ts)
  end.

Definition parse_marker (ts : list token)
    : option export_marker * list token :=
  match strip_prefix declspec_dllexport ts with
  | Some rest => (Some DllExport, rest)
  | None =>
      match strip_prefix attribute_visibility_default ts with
      | Some rest => (Some VisibilityDefault, rest)
      | None => (None, ts)
      end
  end.

Definition parse_type (t : token) : option ctype :=
  match t with
  | Tident s =>
      if String.eqb s "int" then Some Cint
      else if String.eqb s "void" then Some Cvoid
      else None
  | _ => None
  end.

(** The tokens after the opening parenthesis, up to and including the closing
    one.  [(void)] and [()] both declare a function without parameters. *)
Fixpoint parse_param_list (ts : list token)
    : option (list ctype * list token) :=
  match ts with
  | t :: Trparen :: rest => ty ← parse_type t; Some ([ty], rest)
  | t :: Tcomma :: rest =>
      ty ← parse_type t;
      '(tys, rest') ← parse_param_list rest;
      Some (ty :: tys, rest')
  | _ => None
  end.

Definition parse_params (ts : list token) : option (list ctype * list token) :=
  match ts with
  | Trparen :: rest => Some ([], rest)
  | Tident v :: Trparen :: rest =>
      if String.eqb v "void" then Some ([], rest) else parse_param_list ts
  | _ => parse_param_list ts
  end.

Definition parse_decl (ts : list token) : option (fundecl * list token) :=
  let '(lk, ts1) := parse_linkage ts in
  let '(mk, ts2) := parse_marker ts1 in
  match ts2 with
  | ty :: Tident name :: Tlparen :: ts3 =>
      ret ← parse_type ty;
      '(params, ts4) ← parse_params ts3;
      match ts4 with
      | Tsemi :: rest => Some (FunDecl lk mk ret name params, rest)
      | _ => None
      end
  | _ => None
  end.

Fixpoint parse_decls (fuel : nat) (ts : list token) : option (list fundecl) :=
  match ts with
  | [] => Some []
  | _ :: _ =>
      match fuel with
      | O => None
      | S n =>
          '(d, rest) ← parse_decl ts;
          ds ← parse_decls n rest;
          Some (d :: ds)
      end
  end.

(** Every declaration consumes at least one token, so the length of the input
    bounds the number of declarations. *)
Definition declarations (ts : list token) : option (list fundecl) :=
  parse_decls (length ts) ts.

(** The declarations of a translation unit that includes the header [n]
    times and holds nothing else; [None] when preprocessing or parsing
    fails. *)
Definition unit_declarations (predefined : gmap string (list token))
    (n : nat) : option (list fundecl) :=
  match include_times n (start predefined) with
  | inl _ => None
  | inr (_, st) => declarations (out st)
  end.

(** The name under which the linker sees a function: the declared name under
    C linkage, the compiler's mangled name otherwise. *)
Definition link_name (mangle : string -> list ctype -> string)
    (d : fundecl) : string :=
  match fd_linkage d with
  | C_linkage => fd_name d
  | Cxx_linkage => mangle (fd_name d) (fd_params d)
  end.

(** ** Toolchains

    A toolchain is known to the header by the macros it predefines.  The
    header relies on none of its own words being a macro already. *)

Definition header_words : list string :=
  [IMGUI_TESTAPP_API; "extern"; "__declspec"; "dllexport"; "__attribute__";
   "visibility"; "int"; "imgui_testapp_run"; "void"].

Definition untouched (M : gmap string (list token)) : Prop :=
  Forall (fun w => M !! w = None) header_words.

Definition gcc_linux : gmap string (list token) :=
  {[ "__GNUC__" := [Tnumber 14]; "__linux__" := [Tnumber 1] ]}.

Definition mingw : gmap string (list token) :=
  {[ "_WIN32" := [Tnumber 1]; "__GNUC__" := [Tnumber 13] ]}.

Definition msvc : gmap string (list token) :=
  {[ "_WIN32" := [Tnumber 1]; "_MSC_VER" := [Tnumber 1940] ]}.

Definition clang_macos : gmap string (list token) :=
  {[ "__clang__" := [Tnumber 1]; "__GNUC__" := [Tnumber 4];
     "__APPLE__" := [Tnumber 1] ]}.

(* a compiler that predefines none of the macros the header asks about *)
Definition bare : gmap string (list token) := ∅.

(** The body the [#if] chain gives to the macro, as a function of the macro
    table in force when the header is read. *)
Definition selected_body (M : gmap string (list token)) : list token :=
  if bool_decide (is_Some (M !! "_WIN32")) then
    extern_C ++ declspec_dllexport
  else if bool_decide (is_Some (M !! "__GNUC__"))
          || bool_decide (is_Some (M !! "__clang__")) then
    extern_C ++ attribute_visibility_default
  else extern_C.

(** A token list no identifier of which is a macro. *)
Definition inert (M : gmap string (list token)) (ts : list token) : Prop :=
  Forall (fun t => match t with Tident s => M !! s = None | _ => True end) ts.

(** The state of a translation unit after any positive number of inclusions
    of the header. *)
Definition after_header (M : gmap string (list token)) : pp_state :=
  PPState (<[IMGUI_TESTAPP_API := selected_body M]> M) {[this_file]}
          (selected_body M ++ imgui_testapp_run_signature).

(** The declaration the header yields, branch by branch. *)
Definition selected_marker (M : gmap string (list token))
    : option export_marker :=
  if bool_decide (is_Some (M !! "_WIN32")) then Some DllExport
  else if bool_decide (is_Some (M !! "__GNUC__"))
          || bool_decide (is_Some (M !! "__clang__")) then
    Some VisibilityDefault
  else None.

(** The declaration of a translation unit carries an export or visibility
    marker. *)
Definition marked_public (M : gmap string (list token)) : Prop :=
  ∃ d m, unit_declarations M 1 = Some [d] ∧ fd_marker d = Some m.

(** ** The call behind the declaration

    The header only declares [imgui_testapp_run]; its definition and the GUI
    run-loop it drives live elsewhere.  The module below is the behaviour the
    specification gives to the call, as a machine that reacts to what the
    backend and the user do. *)

Module RunLoop.

(** Modelled from the spec: the life of one call, "Idle, Running,
    Terminated" (the definition of the entry point is not in the header). *)
Inductive phase := Idle | Running | Terminated.

(** Modelled from the spec: the process-wide state a caller can observe, as
    the backend's resource counts (windows, graphics contexts) and the guard
    that rejects a run started while another is in progress. *)
Record process := Process {
  windows  : nat;
  contexts : nat;
  guard    : bool
}.

(** Modelled from the spec: whether the windowing and the graphics backend
    initialise on this call. *)
Record backend := Backend {
  window_ok   : bool;
  graphics_ok : bool
}.

(** Modelled from the spec: what the run-loop meets on one turn: another
    frame with the window open, the window being closed, or the loop
    ending unexpectedly. *)
Inductive event := Frame | WindowClosed | LoopAborted.

#[global] Instance event_eq_dec : EqDecision event.
Proof. solve_decision. Defined.

(** Modelled from the spec: the failure kinds of section 7. *)
Inductive failure := InitFailure | ReentrantCall | UnexpectedTermination.

(** Modelled from the spec: what can come out of a function at a
    foreign-function boundary, an integer status or an error unwinding
    through the caller. *)
Inductive crossing :=
| Status (code : Z)
| Unwind (f : failure).

(** Modelled from the spec: a call in progress, with the end of the run-loop
    ([inr tt] for a normal exit, [inl f] for a failure) once there is one. *)
Record call := Call {
  phase_of : phase;
  proc     : process;
  ended    : option (failure + unit)
}.

(** Modelled from the spec: the status convention, 0 for a normal exit and
    non-zero otherwise; every failure is turned into a status here, none goes
    on as an error. *)
Definition to_status (r : failure + unit) : crossing :=
  match r with
  | inr _ => Status 0
  | inl _ => Status 1
  end.

(** Modelled from the spec: what the caller has got back so far; [None]
    while the call is still blocking. *)
Definition returned (c : call) : option crossing := to_status <$> ended c.

(** Modelled from the spec: the run creates a window and a graphics context
    and destroys both before the call returns; a process-wide guard marks a
    run in progress. *)
Definition create_window (p : process) : process :=
  Process (S (windows p)) (contexts p) (guard p).

(** Modelled from the spec: the window of the run is destroyed. *)
Definition destroy_window (p : process) : process :=
  Process (pred (windows p)) (contexts p) (guard p).

(** Modelled from the spec: the graphics context of the run is created. *)
Definition create_context (p : process) : process :=
  Process (windows p) (S (contexts p)) (guard p).

(** Modelled from the spec: the graphics context of the run is destroyed. *)
Definition destroy_context (p : process) : process :=
  Process (windows p) (pred (contexts p)) (guard p).

(** Modelled from the spec: the process-wide guard is raised or lowered. *)
Definition set_guard (g : bool) (p : process) : process :=
  Process (windows p) (contexts p) g.

(** Modelled from the spec: a call that has not been made yet. *)
Definition not_called (p : process) : call := Call Idle p None.

(** Modelled from the spec: entering the call.  A run in progress rejects
    the call at once; a backend that fails to initialise ends the call with
    whatever was created given back; otherwise the run-loop starts. *)
Definition enter (b : backend) (c : call) : call :=
  match phase_of c with
  | Idle =>
      let p := proc c in
      if guard p then Call Terminated p (Some (inl ReentrantCall))
      else
        let p1 := set_guard true p in
        if negb (window_ok b) then
          Call Terminated (set_guard false p1) (Some (inl InitFailure))
        else
          let p2 := create_window p1 in
          if negb (graphics_ok b) then
            Call Terminated (set_guard false (destroy_window p2))
                 (Some (inl InitFailure))
          else Call Running (create_context p2) None
  | _ => c
  end.

(** Modelled from the spec: leaving the run-loop gives context and window
    back and lowers the guard. *)
Definition leave (r : failure + unit) (p : process) : call :=
  Call Terminated (set_guard false (destroy_window (destroy_context p)))
       (Some r).

(** Modelled from the spec: one turn of the run-loop.  Only a running call
    reacts; the window closing or the loop aborting ends it. *)
Definition turn (c : call) (e : event) : call :=
  match phase_of c with
  | Running =>
      match e with
      | Frame => c
      | WindowClosed => leave (inr tt) (proc c)
      | LoopAborted => leave (inl UnexpectedTermination) (proc c)
      end
  | _ => c
  end.

(** Modelled from the spec: the entry point, called in process state [p]
    with backend [b], after the run-loop has met the events [evs]. *)
Definition imgui_testapp_run (b : backend) (p : process)
    (evs : list event) : call :=
  foldl turn (enter b (not_called p)) evs.

(** Modelled from the spec: the run-loop of a call starts when no other run
    is in progress and both backends initialise. *)
Definition starts (b : backend) (p : process) : Prop :=
  guard p = false ∧ window_ok b = true ∧ graphics_ok b = true.

(** Modelled from the spec: the first thing other than a frame that the
    run-loop meets in [evs] is [e]. *)
Definition ends_with (evs : list event) (e : event) : Prop :=
  ∃ pre post, evs = pre ++ e :: post ∧ Forall (eq Frame) pre ∧ e ≠ Frame.

(** Modelled from the spec: a normal exit is a started run-loop whose window
    gets closed. *)
Definition normal_exit (b : backend) (p : process) (evs : list event)
    : Prop :=
  starts b p ∧ ends_with evs WindowClosed.

(** Modelled from the spec: the failure taxonomy of section 7, by what
    the call meets. *)
Inductive fails (b : backend) (p : process) (evs : list event)
    : failure -> Prop :=
| fails_reentrant :
    guard p = true -> fails b p evs ReentrantCall
| fails_initialization :
    guard p = false -> window_ok b && graphics_ok b = false ->
    fails b p evs InitFailure
| fails_unexpectedly :
    starts b p -> ends_with evs LoopAborted ->
    fails b p evs UnexpectedTermination.

(** Modelled from the spec: a backend that initialises. *)
Definition healthy : backend := Backend true true.

(** Modelled from the spec: a backend without a graphics device. *)
Definition headless : backend := Backend true false.

(** Modelled from the spec: a process with nothing allocated. *)
Definition quiet : process := Process 0 0 false.

(** Modelled from the spec: a process in which a run is in progress. *)
Definition busy : process := Process 1 1 true.

End RunLoop.

(** ** Macro expansion lemmas *)

Lemma expand_inert fuel M hide ts :
  inert M ts -> expand fuel M hide ts = ts.
Proof.
  destruct fuel as [|n]; [done|].
  induction 1 as [|t ts Ht _ IH]; [done|].
  cbn [expand] in *. rewrite bind_cons, IH.
  destruct t; try done.
  rewrite Ht. by case_decide.
Qed.

(** The fuel of [expand_line] is never used up: once it exceeds the number
    of macros not yet hidden, more fuel changes nothing. *)
Lemma expand_fuel fuel fuel' M hide ts :
  size (dom M ∖ hide) < fuel -> size (dom M ∖ hide) < fuel' ->
  expand fuel M hide ts = expand fuel' M hide ts.
Proof.
  revert fuel' hide ts.
  induction fuel as [|n IH]; intros [|n'] hide ts Hn Hn'; try lia.
  cbn [expand]. induction ts as [|t ts IHts]; [done|].
  rewrite !bind_cons, IHts. f_equal.
  destruct t as [s| | | | | |]; try done.
  case_decide as Hs; [done|].
  destruct (M !! s) as [body|] eqn:Hbody; [|done].
  assert (size (dom M ∖ ({[s]} ∪ hide)) < size (dom M ∖ hide)).
  { assert (Hdom : s ∈ dom M) by (by apply elem_of_dom_2 with body).
    apply subset_size. split.
    - intros x. rewrite !elem_of_difference, elem_of_union. tauto.
    - intros Hsub. specialize (Hsub s).
      rewrite !elem_of_difference, elem_of_union, elem_of_singleton in Hsub.
      tauto. }
  apply IH; lia.
Qed.

Lemma expand_line_fuel M ts k :
  expand_line M ts = expand (S (size M) + k) M ∅ ts.
Proof.
  unfold expand_line.
  assert (size (dom M ∖ (∅ : gset string)) = size M) as Hsz
    by (by rewrite difference_empty_L, size_dom).
  apply expand_fuel; rewrite Hsz; lia.
Qed.

Lemma expand_macro fuel M hide m body ts :
  m ∉ hide -> M !! m = Some body ->
  expand (S fuel) M hide (Tident m :: ts)
  = expand fuel M ({[m]} ∪ hide) body ++ expand (S fuel) M hide ts.
Proof.
  intros Hhide Hm. cbn [expand]. rewrite bind_cons.
  by rewrite decide_False, Hm.
Qed.

Lemma expand_object_macro M m body ts :
  M !! m = Some body -> inert M body -> inert M ts ->
  expand_line M (Tident m :: ts) = body ++ ts.
Proof.
  intros Hm Hbody Hts. unfold expand_line.
  rewrite (expand_macro _ _ _ _ body) by (done || set_solver).
  by rewrite !expand_inert.
Qed.

Lemma untouched_lookup M w : untouched M -> w ∈ header_words -> M !! w = None.
Proof. unfold untouched. rewrite Forall_forall. auto. Qed.

Ltac header_word :=
  match goal with
  | H : untouched ?M |- ?M !! ?w = None =>
      apply (untouched_lookup M w H); unfold header_words, IMGUI_TESTAPP_API;
      set_solver
  end.

Lemma selected_body_inert M body :
  untouched M -> inert (<[IMGUI_TESTAPP_API := body]> M) (selected_body M).
Proof.
  intros HM. unfold selected_body, inert.
  repeat case_match; repeat constructor;
    rewrite lookup_insert_ne by done; header_word.
Qed.

Lemma signature_inert M body :
  untouched M ->
  inert (<[IMGUI_TESTAPP_API := body]> M) imgui_testapp_run_signature.
Proof.
  intros HM. unfold inert. repeat constructor;
    rewrite lookup_insert_ne by done; header_word.
Qed.


(** ** Running the header *)

Lemma define_fresh m body st :
  macros st !! m = None ->
  define m body st
  = inr (tt, PPState (<[m := body]> (macros st)) (once st) (out st)).
Proof. intros Hm. unfold define. by rewrite Hm. Qed.

Lemma header_run st :
  untouched (macros st) ->
  imgui_testapp_api_h st
  = inr (tt, PPState (<[IMGUI_TESTAPP_API := selected_body (macros st)]>
                        (macros st))
                     ({[this_file]} ∪ once st)
                     (out st ++ selected_body (macros st)
                             ++ imgui_testapp_run_signature)).
Proof.
  intros HM.
  assert (Hapi : macros st !! IMGUI_TESTAPP_API = None) by header_word.
  assert (Hexp : expand_line
            (<[IMGUI_TESTAPP_API := selected_body (macros st)]> (macros st))
            (Tident IMGUI_TESTAPP_API :: imgui_testapp_run_signature)
          = selected_body (macros st) ++ imgui_testapp_run_signature).
  { apply expand_object_macro;
      auto using selected_body_inert, signature_inert.
    apply lookup_insert_eq. }
  unfold imgui_testapp_api_h, mbind, pp_mbind, pp_bind, pragma_once, defined.
  cbn [macros once out]. revert Hexp. unfold selected_body.
  destruct (bool_decide (is_Some (macros st !! "_WIN32")));
    cbn [macros once out];
    [|destruct (bool_decide (is_Some (macros st !! "__GNUC__"))
               || bool_decide (is_Some (macros st !! "__clang__")))];
    intros Hexp; rewrite define_fresh by done;
    unfold text; cbn [macros once out]; by rewrite Hexp.
Qed.

Lemma include_first st :
  this_file ∉ once st -> untouched (macros st) ->
  include this_file imgui_testapp_api_h st
  = inr (tt, PPState (<[IMGUI_TESTAPP_API := selected_body (macros st)]>
                        (macros st))
                     ({[this_file]} ∪ once st)
                     (out st ++ selected_body (macros st)
                             ++ imgui_testapp_run_signature)).
Proof.
  intros Hfresh HM. unfold include.
  rewrite decide_False by done. by apply header_run.
Qed.

Lemma include_again st :
  this_file ∈ once st -> include this_file imgui_testapp_api_h st = inr (tt, st).
Proof. intros Hin. unfold include. by rewrite decide_True. Qed.

Lemma include_times_again n st :
  this_file ∈ once st -> include_times n st = inr (tt, st).
Proof.
  intros Hin. induction n as [|n IH]; [done|].
  cbn [include_times]. unfold mbind, pp_mbind, pp_bind.
  by rewrite include_again.
Qed.

Lemma include_times_start M n :
  untouched M -> include_times (S n) (start M) = inr (tt, after_header M).
Proof.
  intros HM. cbn [include_times]. unfold mbind, pp_mbind, pp_bind.
  rewrite include_first by (done || set_solver).
  cbn [start macros once out].
  rewrite include_times_again by (cbn; set_solver).
  by rewrite (right_id_L ∅ (∪)).
Qed.

Lemma declarations_after_header M :
  declarations (out (after_header M))
  = Some [FunDecl C_linkage (selected_marker M) Cint "imgui_testapp_run" []].
Proof.
  unfold after_header, selected_body, selected_marker. cbn [out].
  by repeat case_match.
Qed.

Lemma unit_declarations_header M n :
  untouched M ->
  unit_declarations M (S n)
  = Some [FunDecl C_linkage (selected_marker M) Cint "imgui_testapp_run" []].
Proof.
  intros HM. unfold unit_declarations.
  rewrite include_times_start by done. apply declarations_after_header.
Qed.

Lemma selected_marker_cases M :
  (is_Some (M !! "_WIN32") ∧ selected_marker M = Some DllExport) ∨
  (M !! "_WIN32" = None ∧
   (is_Some (M !! "__GNUC__") ∨ is_Some (M !! "__clang__")) ∧
   selected_marker M = Some VisibilityDefault) ∨
  (M !! "_WIN32" = None ∧ M !! "__GNUC__" = None ∧ M !! "__clang__" = None ∧
   selected_marker M = None).
Proof.
  unfold selected_marker.
  destruct (M !! "_WIN32") as [w|] eqn:Hw.
  { left. by rewrite bool_decide_true. }
  right. rewrite bool_decide_false by (by intros [? ?]).
  destruct (M !! "__GNUC__") as [g|] eqn:Hg.
  { left. rewrite bool_decide_true by done. eauto. }
  destruct (M !! "__clang__") as [c|] eqn:Hc.
  { left. rewrite bool_decide_false by (by intros [? ?]).
    rewrite bool_decide_true by done. eauto. }
  right. by rewrite !bool_decide_false by (by intros [? ?]).
Qed.

(** * The declaration *)

Example declarations_gcc_linux :
  unit_declarations gcc_linux 1
  = Some [FunDecl C_linkage (Some VisibilityDefault) Cint
                  "imgui_testapp_run" []].
Proof. reflexivity. Qed.

Example declarations_mingw :
  unit_declarations mingw 3
  = Some [FunDecl C_linkage (Some DllExport) Cint "imgui_testapp_run" []].
Proof. reflexivity. Qed.

Example declarations_bare :
  unit_declarations bare 2
  = Some [FunDecl C_linkage None Cint "imgui_testapp_run" []].
Proof. reflexivity. Qed.

(* a toolchain that turns [int] into a macro gets another declaration *)
Example declarations_int_redefined :
  unit_declarations {[ "int" := [Tident "void"] ]} 1
  = Some [FunDecl C_linkage None Cvoid "imgui_testapp_run" []].
Proof. reflexivity. Qed.

(* a toolchain that already defines the macro differently is refused *)
Example conflicting_definition :
  include_times 1 (start {[ IMGUI_TESTAPP_API := [Tident "static"] ]})
  = inl (Redefined IMGUI_TESTAPP_API).
Proof. reflexivity. Qed.

(** C1: whatever the toolchain, a translation unit that includes the header
    holds exactly one declaration; it declares a function named
    [imgui_testapp_run] that takes no parameter and returns [int]. *)
Theorem header_declares_one_function (M : gmap string (list token)) :
  untouched M ->
  ∃ d, unit_declarations M 1 = Some [d]
       ∧ fd_name d = "imgui_testapp_run"
       ∧ fd_params d = []
       ∧ fd_ret d = Cint.
Proof.
  intros HM. eexists. split; [by apply unit_declarations_header|done].
Qed.

Lemma header_declares_one_function_gcc :
  untouched gcc_linux ∧
  ∃ d, unit_declarations gcc_linux 1 = Some [d]
       ∧ fd_name d = "imgui_testapp_run"
       ∧ fd_params d = []
       ∧ fd_ret d = Cint.
Proof.
  split; [|apply (header_declares_one_function gcc_linux)];
    unfold untouched, header_words; repeat constructor.
Defined.

(** * Export markers, branch by branch *)

(** C2, as stated, fails where none of the three macros is defined: the
    declaration read there carries no marker at all. *)
Lemma bare_toolchain_not_marked :
  untouched bare ∧ ¬ marked_public bare.
Proof.
  split; [unfold untouched, header_words; repeat constructor|].
  intros (d & m & Hd & Hm).
  vm_compute in Hd. injection Hd as <-. discriminate Hm.
Qed.

(** C2, amended: the declaration carries [__declspec(dllexport)] where
    [_WIN32] is defined, otherwise the default-visibility attribute where
    [__GNUC__] or [__clang__] is defined, and no marker in the remaining
    branch. *)
Theorem marker_by_branch (M : gmap string (list token)) :
  untouched M ->
  ∃ d, unit_declarations M 1 = Some [d] ∧
    ((is_Some (M !! "_WIN32") ∧ fd_marker d = Some DllExport) ∨
     (M !! "_WIN32" = None ∧
      (is_Some (M !! "__GNUC__") ∨ is_Some (M !! "__clang__")) ∧
      fd_marker d = Some VisibilityDefault) ∨
     (M !! "_WIN32" = None ∧ M !! "__GNUC__" = None ∧
      M !! "__clang__" = None ∧ fd_marker d = None)).
Proof.
  intros HM. eexists. split; [by apply unit_declarations_header|].
  apply selected_marker_cases.
Qed.

Lemma marker_by_branch_clang_macos :
  untouched clang_macos ∧
  ∃ d, unit_declarations clang_macos 1 = Some [d] ∧
    ((is_Some (clang_macos !! "_WIN32") ∧ fd_marker d = Some DllExport) ∨
     (clang_macos !! "_WIN32" = None ∧
      (is_Some (clang_macos !! "__GNUC__")
       ∨ is_Some (clang_macos !! "__clang__")) ∧
      fd_marker d = Some VisibilityDefault) ∨
     (clang_macos !! "_WIN32" = None ∧ clang_macos !! "__GNUC__" = None ∧
      clang_macos !! "__clang__" = None ∧ fd_marker d = None)).
Proof.
  split; [|apply (marker_by_branch clang_macos)];
    unfold untouched, header_words; repeat constructor.
Defined.

(** * Linkage *)

(** C3: in every branch the macro begins with [extern "C"], the declaration
    has C linkage, and so the name the linker sees is the declared name,
    whatever the compiler's mangling scheme. *)
Theorem every_branch_has_C_linkage (M : gmap string (list token))
    (mangle : string -> list ctype -> string) :
  untouched M ->
  ∃ st rest d,
    include this_file imgui_testapp_api_h (start M) = inr (tt, st)
    ∧ macros st !! IMGUI_TESTAPP_API = Some (extern_C ++ rest)
    ∧ declarations (out st) = Some [d]
    ∧ fd_linkage d = C_linkage
    ∧ link_name mangle d = "imgui_testapp_run".
Proof.
  intros HM.
  pose proof (include_first (start M)) as Hrun.
  cbn [start macros once out] in Hrun.
  rewrite Hrun by (done || set_solver). clear Hrun.
  eexists _, (drop 2 (selected_body M)), _.
  split; [done|]. cbn [macros out app].
  rewrite lookup_insert_eq.
  split; [|split; [apply (declarations_after_header M)|done]].
  unfold selected_body. by repeat case_match.
Qed.

Lemma every_branch_has_C_linkage_msvc :
  untouched msvc ∧
  ∃ st rest d,
    include this_file imgui_testapp_api_h (start msvc) = inr (tt, st)
    ∧ macros st !! IMGUI_TESTAPP_API = Some (extern_C ++ rest)
    ∧ declarations (out st) = Some [d]
    ∧ fd_linkage d = C_linkage
    ∧ link_name (fun name _ => "?" +:+ name +:+ "@@YAHXZ") d
      = "imgui_testapp_run".
Proof.
  split; [|apply (every_branch_has_C_linkage msvc)];
    unfold untouched, header_words; repeat constructor.
Defined.

(** * The branches one by one *)

Lemma selected_body_plain M :
  M !! "_WIN32" = None -> M !! "__GNUC__" = None -> M !! "__clang__" = None ->
  selected_body M = extern_C.
Proof.
  intros Hw Hg Hc. unfold selected_body. rewrite Hw, Hg, Hc.
  by rewrite !bool_decide_false by (by intros [? ?]).
Qed.

Lemma selected_body_win32 M :
  is_Some (M !! "_WIN32") -> selected_body M = extern_C ++ declspec_dllexport.
Proof. intros Hw. unfold selected_body. by rewrite bool_decide_true. Qed.

(** C8: with none of [_WIN32], [__GNUC__] and [__clang__] defined, the macro
    stands for [extern "C"] alone, and the declaration that reaches the
    compiler carries no export or visibility marker. *)
Theorem plain_branch_expansion (M : gmap string (list token)) :
  untouched M ->
  M !! "_WIN32" = None -> M !! "__GNUC__" = None -> M !! "__clang__" = None ->
  ∃ st d,
    include this_file imgui_testapp_api_h (start M) = inr (tt, st)
    ∧ macros st !! IMGUI_TESTAPP_API = Some [Tident "extern"; Tstring "C"]
    ∧ expand_line (macros st) [Tident IMGUI_TESTAPP_API]
      = [Tident "extern"; Tstring "C"]
    ∧ out st = [Tident "extern"; Tstring "C"] ++ imgui_testapp_run_signature
    ∧ declarations (out st) = Some [d]
    ∧ fd_marker d = None.
Proof.
  intros HM Hw Hg Hc.
  pose proof (include_first (start M)) as Hrun.
  cbn [start macros once out] in Hrun.
  rewrite Hrun by (done || set_solver). clear Hrun.
  rewrite (selected_body_plain M) by done.
  eexists _, _. split; [done|]. cbn [macros out].
  rewrite lookup_insert_eq. split; [done|].
  split; [|split; [done|split; [done|done]]].
  pose proof (selected_body_inert M extern_C HM) as Hin.
  rewrite (selected_body_plain M) in Hin by done.
  rewrite (expand_object_macro _ _ extern_C []);
    [done|apply lookup_insert_eq|done|constructor].
Qed.

Lemma plain_branch_expansion_bare :
  (untouched bare ∧ bare !! "_WIN32" = None ∧ bare !! "__GNUC__" = None
   ∧ bare !! "__clang__" = None) ∧
  ∃ st d,
    include this_file imgui_testapp_api_h (start bare) = inr (tt, st)
    ∧ macros st !! IMGUI_TESTAPP_API = Some [Tident "extern"; Tstring "C"]
    ∧ expand_line (macros st) [Tident IMGUI_TESTAPP_API]
      = [Tident "extern"; Tstring "C"]
    ∧ out st = [Tident "extern"; Tstring "C"] ++ imgui_testapp_run_signature
    ∧ declarations (out st) = Some [d]
    ∧ fd_marker d = None.
Proof.
  split; [|apply (plain_branch_expansion bare)];
    unfold untouched, header_words; repeat constructor.
Defined.

(** C9: with [_WIN32] defined the macro stands for
    [extern "C" __declspec(dllexport)], whether or not [__GNUC__] or
    [__clang__] is defined as well. *)
Theorem win32_branch_first (M : gmap string (list token)) :
  untouched M ->
  is_Some (M !! "_WIN32") ->
  ∃ st,
    include this_file imgui_testapp_api_h (start M) = inr (tt, st)
    ∧ macros st !! IMGUI_TESTAPP_API
      = Some [Tident "extern"; Tstring "C";
              Tident "__declspec"; Tlparen; Tident "dllexport"; Trparen]
    ∧ expand_line (macros st) [Tident IMGUI_TESTAPP_API]
      = [Tident "extern"; Tstring "C";
         Tident "__declspec"; Tlparen; Tident "dllexport"; Trparen]
    ∧ declarations (out st)
      = Some [FunDecl C_linkage (Some DllExport) Cint "imgui_testapp_run" []].
Proof.
  intros HM Hw.
  pose proof (include_first (start M)) as Hrun.
  cbn [start macros once out] in Hrun.
  rewrite Hrun by (done || set_solver). clear Hrun.
  eexists. split; [done|]. cbn [macros out].
  rewrite lookup_insert_eq.
  rewrite (expand_object_macro _ _ (selected_body M) []);
    [|apply lookup_insert_eq|by apply selected_body_inert|constructor].
  by rewrite (selected_body_win32 M) by done.
Qed.

Lemma win32_branch_first_mingw :
  (untouched mingw ∧ is_Some (mingw !! "_WIN32")
   ∧ is_Some (mingw !! "__GNUC__")) ∧
  ∃ st,
    include this_file imgui_testapp_api_h (start mingw) = inr (tt, st)
    ∧ macros st !! IMGUI_TESTAPP_API
      = Some [Tident "extern"; Tstring "C";
              Tident "__declspec"; Tlparen; Tident "dllexport"; Trparen]
    ∧ expand_line (macros st) [Tident IMGUI_TESTAPP_API]
      = [Tident "extern"; Tstring "C";
         Tident "__declspec"; Tlparen; Tident "dllexport"; Trparen]
    ∧ declarations (out st)
      = Some [FunDecl C_linkage (Some DllExport) Cint "imgui_testapp_run" []].
Proof.
  split; [|apply (win32_branch_first mingw)];
    unfold untouched, header_words; repeat econstructor.
Defined.

(** * Repeated inclusion *)

(** Read a second time without the guard, the header would hand its
    declaration to the compiler again. *)
Remark reread_without_guard :
  (imgui_testapp_api_h ;; imgui_testapp_api_h) (start gcc_linux)
  = inr (tt, PPState (macros (after_header gcc_linux)) {[this_file]}
                     (out (after_header gcc_linux)
                      ++ out (after_header gcc_linux))).
Proof. vm_compute. reflexivity. Qed.

(** C10: the header marks itself with [#pragma once]; a translation unit
    that includes it any number of times (at least once) ends in the state
    reached by the first inclusion, without a redefinition error: the macro
    has the one body chosen then, and the output holds the declaration
    once. *)
Theorem pragma_once_guards (M : gmap string (list token)) (n : nat) :
  untouched M ->
  ∃ st d,
    include this_file imgui_testapp_api_h (start M) = inr (tt, st)
    ∧ this_file ∈ once st
    ∧ include_times (S n) (start M) = inr (tt, st)
    ∧ (∀ st', once st ⊆ once st' ->
              include this_file imgui_testapp_api_h st' = inr (tt, st'))
    ∧ declarations (out st) = Some [d]
    ∧ count_occ token_eq_dec (out st) (Tident "imgui_testapp_run") = 1.
Proof.
  intros HM.
  exists (after_header M). eexists.
  assert (Hin : this_file ∈ once (after_header M)) by (cbn; set_solver).
  split; [|split; [done|split; [by apply include_times_start|]]].
  { pose proof (include_times_start M 0 HM) as H1.
    cbn [include_times] in H1. unfold mbind, pp_mbind, pp_bind in H1.
    destruct (include this_file imgui_testapp_api_h (start M))
      as [e|[[] st]]; [done|].
    by cbn in H1. }
  split; [intros st' Hsub; apply include_again; set_solver|].
  split; [apply declarations_after_header|].
  unfold after_header, selected_body. cbn [out]. by repeat case_match.
Qed.

Lemma pragma_once_guards_gcc :
  untouched gcc_linux ∧
  ∃ st d,
    include this_file imgui_testapp_api_h (start gcc_linux) = inr (tt, st)
    ∧ this_file ∈ once st
    ∧ include_times 5 (start gcc_linux) = inr (tt, st)
    ∧ (∀ st', once st ⊆ once st' ->
              include this_file imgui_testapp_api_h st' = inr (tt, st'))
    ∧ declarations (out st) = Some [d]
    ∧ count_occ token_eq_dec (out st) (Tident "imgui_testapp_run") = 1.
Proof.
  split; [|apply (pragma_once_guards gcc_linux 4)];
    unfold untouched, header_words; repeat constructor.
Defined.

(** * More about the header *)

Lemma selected_body_gnu M :
  M !! "_WIN32" = None ->
  is_Some (M !! "__GNUC__") ∨ is_Some (M !! "__clang__") ->
  selected_body M = extern_C ++ attribute_visibility_default.
Proof.
  intros Hw Hgc. unfold selected_body. rewrite Hw.
  rewrite bool_decide_false by (by intros [? ?]).
  destruct Hgc as [Hg|Hc].
  - by rewrite (bool_decide_true _ Hg).
  - rewrite (bool_decide_true _ Hc). by rewrite orb_true_r.
Qed.


Lemma selected_body_insert M body :
  selected_body (<[IMGUI_TESTAPP_API := body]> M) = selected_body M.
Proof. unfold selected_body. by rewrite !lookup_insert_ne by done. Qed.

Lemma define_same m body st :
  macros st !! m = Some body -> define m body st = inr (tt, st).
Proof. intros Hm. unfold define. rewrite Hm. by rewrite decide_True. Qed.


(** The header read in a state where its macro already has the body the
    branches choose. *)
Lemma header_rerun M ons o :
  untouched M ->
  imgui_testapp_api_h (PPState (<[IMGUI_TESTAPP_API := selected_body M]> M)
                               ons o)
  = inr (tt, PPState (<[IMGUI_TESTAPP_API := selected_body M]> M)
                     ({[this_file]} ∪ ons)
                     (o ++ selected_body M ++ imgui_testapp_run_signature)).
Proof.
  intros HM.
  assert (Hexp : expand_line (<[IMGUI_TESTAPP_API := selected_body M]> M)
            (Tident IMGUI_TESTAPP_API :: imgui_testapp_run_signature)
          = selected_body M ++ imgui_testapp_run_signature).
  { apply expand_object_macro;
      auto using selected_body_inert, signature_inert.
    apply lookup_insert_eq. }
  unfold imgui_testapp_api_h, mbind, pp_mbind, pp_bind, pragma_once, defined.
  cbn [macros once out]. rewrite !lookup_insert_ne by done.
  revert Hexp. unfold selected_body.
  destruct (bool_decide (is_Some (M !! "_WIN32")));
    cbn [macros once out]; rewrite ?lookup_insert_ne by done;
    [|destruct (bool_decide (is_Some (M !! "__GNUC__"))
               || bool_decide (is_Some (M !! "__clang__")))];
    intros Hexp; rewrite define_same by apply lookup_insert_eq;
    unfold text; cbn [macros once out]; by rewrite Hexp.
Qed.

(** X1: where [_WIN32] is not defined and [__GNUC__] or [__clang__] is, the
    macro stands for [extern "C" __attribute__((visibility("default")))] and
    the declaration carries the default-visibility marker. *)
Theorem gnu_branch_expansion (M : gmap string (list token)) :
  untouched M ->
  M !! "_WIN32" = None ->
  is_Some (M !! "__GNUC__") ∨ is_Some (M !! "__clang__") ->
  ∃ st,
    include this_file imgui_testapp_api_h (start M) = inr (tt, st)
    ∧ macros st !! IMGUI_TESTAPP_API
      = Some [Tident "extern"; Tstring "C"; Tident "__attribute__";
              Tlparen; Tlparen; Tident "visibility"; Tlparen;
              Tstring "default"; Trparen; Trparen; Trparen]
    ∧ expand_line (macros st) [Tident IMGUI_TESTAPP_API]
      = [Tident "extern"; Tstring "C"; Tident "__attribute__";
         Tlparen; Tlparen; Tident "visibility"; Tlparen;
         Tstring "default"; Trparen; Trparen; Trparen]
    ∧ declarations (out st)
      = Some [FunDecl C_linkage (Some VisibilityDefault) Cint
                      "imgui_testapp_run" []].
Proof.
  intros HM Hw Hgc.
  pose proof (include_first (start M)) as Hrun.
  cbn [start macros once out] in Hrun.
  rewrite Hrun by (done || set_solver). clear Hrun.
  eexists. split; [done|]. cbn [macros out].
  rewrite lookup_insert_eq.
  rewrite (expand_object_macro _ _ (selected_body M) []);
    [|apply lookup_insert_eq|by apply selected_body_inert|constructor].
  by rewrite (selected_body_gnu M) by done.
Qed.

Lemma gnu_branch_expansion_clang :
  (untouched {[ "__clang__" := [Tnumber 1] ]}
   ∧ ({[ "__clang__" := [Tnumber 1] ]} : gmap string (list token))
     !! "_WIN32" = None
   ∧ (is_Some (({[ "__clang__" := [Tnumber 1] ]}
                : gmap string (list token)) !! "__GNUC__")
      ∨ is_Some (({[ "__clang__" := [Tnumber 1] ]}
                  : gmap string (list token)) !! "__clang__"))) ∧
  ∃ st,
    include this_file imgui_testapp_api_h
            (start {[ "__clang__" := [Tnumber 1] ]}) = inr (tt, st)
    ∧ macros st !! IMGUI_TESTAPP_API
      = Some [Tident "extern"; Tstring "C"; Tident "__attribute__";
              Tlparen; Tlparen; Tident "visibility"; Tlparen;
              Tstring "default"; Trparen; Trparen; Trparen]
    ∧ expand_line (macros st) [Tident IMGUI_TESTAPP_API]
      = [Tident "extern"; Tstring "C"; Tident "__attribute__";
         Tlparen; Tlparen; Tident "visibility"; Tlparen;
         Tstring "default"; Trparen; Trparen; Trparen]
    ∧ declarations (out st)
      = Some [FunDecl C_linkage (Some VisibilityDefault) Cint
                      "imgui_testapp_run" []].
Proof.
  assert (Hc : is_Some (({[ "__clang__" := [Tnumber 1] ]}
                         : gmap string (list token)) !! "__clang__"))
    by (by eexists).
  split; [|apply (gnu_branch_expansion {[ "__clang__" := [Tnumber 1] ]})];
    unfold untouched, header_words; repeat split; auto;
    repeat constructor.
Defined.



(** X3: included anywhere in a translation unit (not yet included, its words
    not macros), the header defines the one macro [IMGUI_TESTAPP_API] and
    appends the one declaration: every other macro, the output so far and the
    record of other files read once stay as they were. *)
Theorem header_touches_one_macro (st : pp_state) :
  this_file ∉ once st -> untouched (macros st) ->
  ∃ st' decl d,
    include this_file imgui_testapp_api_h st = inr (tt, st')
    ∧ (∀ m, m ≠ IMGUI_TESTAPP_API -> macros st' !! m = macros st !! m)
    ∧ is_Some (macros st' !! IMGUI_TESTAPP_API)
    ∧ (∀ f, f ≠ this_file -> f ∈ once st' ↔ f ∈ once st)
    ∧ out st' = out st ++ decl
    ∧ declarations decl = Some [d].
Proof.
  intros Hfresh HM. rewrite include_first by done.
  eexists _, _, _. split; [done|]. cbn [macros once out].
  split; [intros m Hm; by rewrite lookup_insert_ne|].
  split; [by rewrite lookup_insert_eq|].
  split.
  { intros f Hf. rewrite elem_of_union, elem_of_singleton. tauto. }
  split; [done|].
  apply (declarations_after_header (macros st)).
Qed.

Lemma header_touches_one_macro_after_other_text :
  ((this_file ∉ once (PPState gcc_linux {[ "vulkan.h" ]} [Tident "typedef"]))
   ∧ untouched
       (macros (PPState gcc_linux {[ "vulkan.h" ]} [Tident "typedef"]))) ∧
  ∃ st' decl d,
    include this_file imgui_testapp_api_h
            (PPState gcc_linux {[ "vulkan.h" ]} [Tident "typedef"])
    = inr (tt, st')
    ∧ (∀ m, m ≠ IMGUI_TESTAPP_API -> macros st' !! m = gcc_linux !! m)
    ∧ is_Some (macros st' !! IMGUI_TESTAPP_API)
    ∧ (∀ f, f ≠ this_file -> f ∈ once st' ↔ f ∈ ({[ "vulkan.h" ]} : gset string))
    ∧ out st' = [Tident "typedef"] ++ decl
    ∧ declarations decl = Some [d].
Proof.
  assert (H1 : this_file ∉
                 once (PPState gcc_linux {[ "vulkan.h" ]} [Tident "typedef"]))
    by (cbn; rewrite elem_of_singleton; discriminate).
  assert (H2 : untouched
                 (macros (PPState gcc_linux {[ "vulkan.h" ]}
                                  [Tident "typedef"])))
    by (unfold untouched, header_words; repeat constructor).
  split; [done|].
  exact (header_touches_one_macro _ H1 H2).
Defined.



(** X5: read a second time with the guard out of play, the header still
    goes through: the branch chosen is the same, so the [#define] repeats the
    body the macro has and is accepted, the macro table is unchanged, and the
    output holds the same declaration twice. *)
Theorem reread_is_benign (M : gmap string (list token)) :
  untouched M ->
  ∃ st1 st2 d,
    imgui_testapp_api_h (start M) = inr (tt, st1)
    ∧ imgui_testapp_api_h st1 = inr (tt, st2)
    ∧ (imgui_testapp_api_h ;; imgui_testapp_api_h) (start M) = inr (tt, st2)
    ∧ macros st2 = macros st1
    ∧ out st2 = out st1 ++ out st1
    ∧ declarations (out st1) = Some [d]
    ∧ declarations (out st2) = Some [d; d].
Proof.
  intros HM.
  pose proof (header_run (start M) HM) as H1.
  cbn [start macros once out app] in H1.
  pose proof (header_rerun M ({[this_file]} ∪ ∅)
                (selected_body M ++ imgui_testapp_run_signature) HM) as H2.
  eexists _, _, _. split; [exact H1|]. split; [exact H2|].
  split.
  { unfold mbind, pp_mbind, pp_bind. rewrite H1. exact H2. }
  cbn [macros out]. split; [done|]. split; [done|].
  split; [apply (declarations_after_header M)|].
  unfold selected_body, selected_marker. by repeat case_match.
Qed.

Lemma reread_is_benign_msvc :
  untouched msvc ∧
  ∃ st1 st2 d,
    imgui_testapp_api_h (start msvc) = inr (tt, st1)
    ∧ imgui_testapp_api_h st1 = inr (tt, st2)
    ∧ (imgui_testapp_api_h ;; imgui_testapp_api_h) (start msvc)
      = inr (tt, st2)
    ∧ macros st2 = macros st1
    ∧ out st2 = out st1 ++ out st1
    ∧ declarations (out st1) = Some [d]
    ∧ declarations (out st2) = Some [d; d].
Proof.
  split; [|apply (reread_is_benign msvc)];
    unfold untouched, header_words; repeat constructor.
Defined.

(** X6: the header never undefines its macro, so it serves declarations that
    come after the header: a later [IMGUI_TESTAPP_API int name(void);] gets
    the linkage and the export marker of [imgui_testapp_run]. *)
Theorem macro_serves_later_declarations (M : gmap string (list token))
    (name : string) :
  untouched M -> M !! name = None -> name ≠ IMGUI_TESTAPP_API ->
  ∃ st d1 d2,
    (include this_file imgui_testapp_api_h ;;
     text [Tident IMGUI_TESTAPP_API; Tident "int"; Tident name; Tlparen;
           Tident "void"; Trparen; Tsemi]) (start M) = inr (tt, st)
    ∧ declarations (out st) = Some [d1; d2]
    ∧ fd_name d1 = "imgui_testapp_run"
    ∧ fd_name d2 = name
    ∧ fd_linkage d2 = fd_linkage d1
    ∧ fd_marker d2 = fd_marker d1
    ∧ fd_ret d2 = Cint
    ∧ fd_params d2 = [].
Proof.
  intros HM Hname Hne.
  pose proof (include_first (start M)) as Hrun.
  cbn [start macros once out app] in Hrun.
  unfold mbind, pp_mbind, pp_bind.
  rewrite Hrun by (done || set_solver). clear Hrun.
  unfold text. cbn [macros once out].
  rewrite (expand_object_macro _ _ (selected_body M)
             [Tident "int"; Tident name; Tlparen; Tident "void"; Trparen;
              Tsemi]).
  - eexists _,
      (FunDecl C_linkage (selected_marker M) Cint "imgui_testapp_run" []),
      (FunDecl C_linkage (selected_marker M) Cint name []).
    split; [done|]. cbn [out].
    unfold selected_body, selected_marker. by repeat case_match.
  - apply lookup_insert_eq.
  - by apply selected_body_inert.
  - unfold inert. repeat constructor;
      rewrite lookup_insert_ne by done; (done || header_word).
Qed.

Lemma macro_serves_later_declarations_shutdown :
  (untouched gcc_linux ∧ gcc_linux !! "imgui_testapp_stop" = None
   ∧ "imgui_testapp_stop" ≠ IMGUI_TESTAPP_API) ∧
  ∃ st d1 d2,
    (include this_file imgui_testapp_api_h ;;
     text [Tident IMGUI_TESTAPP_API; Tident "int";
           Tident "imgui_testapp_stop"; Tlparen;
           Tident "void"; Trparen; Tsemi]) (start gcc_linux) = inr (tt, st)
    ∧ declarations (out st) = Some [d1; d2]
    ∧ fd_name d1 = "imgui_testapp_run"
    ∧ fd_name d2 = "imgui_testapp_stop"
    ∧ fd_linkage d2 = fd_linkage d1
    ∧ fd_marker d2 = fd_marker d1
    ∧ fd_ret d2 = Cint
    ∧ fd_params d2 = [].
Proof.
  assert (H1 : untouched gcc_linux)
    by (unfold untouched, header_words; repeat constructor).
  assert (H3 : "imgui_testapp_stop" ≠ IMGUI_TESTAPP_API) by discriminate.
  split; [split; [exact H1|split; [reflexivity|exact H3]]|].
  exact (macro_serves_later_declarations gcc_linux "imgui_testapp_stop"
           H1 eq_refl H3).
Defined.

(** * The call: blocking, status, resources *)

Import RunLoop.

Example run_until_closed :
  imgui_testapp_run healthy quiet [Frame; Frame; WindowClosed; Frame]
  = Call Terminated quiet (Some (inr tt)).
Proof. reflexivity. Qed.

Example run_still_open :
  imgui_testapp_run healthy quiet [Frame; Frame]
  = Call Running (Process 1 1 true) None.
Proof. reflexivity. Qed.

Example run_headless :
  returned (imgui_testapp_run headless quiet [Frame]) = Some (Status 1).
Proof. reflexivity. Qed.

Lemma set_guard_restore p :
  guard p = false -> set_guard false (set_guard true p) = p.
Proof. destruct p as [w c g]. cbn. by intros ->. Qed.

Lemma window_restore p :
  guard p = false ->
  set_guard false (destroy_window (create_window (set_guard true p))) = p.
Proof. destruct p as [w c g]. cbn. by intros ->. Qed.

Lemma leave_restore r p :
  guard p = false ->
  leave r (create_context (create_window (set_guard true p)))
  = Call Terminated p (Some r).
Proof. destruct p as [w c g]. cbn. by intros ->. Qed.

(** The three ways into the call. *)
Lemma enter_rejected b p :
  guard p = true ->
  enter b (not_called p) = Call Terminated p (Some (inl ReentrantCall)).
Proof. intros Hg. unfold enter. cbn. by rewrite Hg. Qed.

Lemma enter_init_failure b p :
  guard p = false -> window_ok b && graphics_ok b = false ->
  enter b (not_called p) = Call Terminated p (Some (inl InitFailure)).
Proof.
  intros Hg Hb. unfold enter. cbn [not_called phase_of proc]. rewrite Hg.
  destruct (window_ok b); cbn [negb].
  - destruct (graphics_ok b); [done|]. cbn [negb].
    by rewrite window_restore.
  - by rewrite set_guard_restore.
Qed.

Lemma enter_started b p :
  starts b p ->
  enter b (not_called p)
  = Call Running (create_context (create_window (set_guard true p))) None.
Proof.
  intros (Hg & Hw & Hx). unfold enter. cbn [not_called phase_of proc].
  by rewrite Hg, Hw, Hx.
Qed.

Lemma starts_or_not b p :
  guard p = true
  ∨ (guard p = false ∧ window_ok b && graphics_ok b = false)
  ∨ starts b p.
Proof.
  unfold starts.
  destruct (guard p), (window_ok b), (graphics_ok b); cbn; auto.
Qed.

(** A call that has ended reacts to nothing. *)
Lemma terminated_stays c evs :
  phase_of c = Terminated -> foldl turn c evs = c.
Proof.
  intros Hc. induction evs as [|e evs IH]; [done|].
  cbn [foldl]. unfold turn at 2. by rewrite Hc.
Qed.

(** Frames leave a running call where it is. *)
Lemma frames_keep_running c evs :
  phase_of c = Running -> Forall (eq Frame) evs -> foldl turn c evs = c.
Proof.
  intros Hc. induction 1 as [|e evs <- _ IH]; [done|].
  cbn [foldl]. unfold turn at 2. by rewrite Hc.
Qed.

(** A running call either has met frames only, or ends at the first event
    that is not a frame. *)
Lemma running_split c evs :
  phase_of c = Running ->
  (Forall (eq Frame) evs ∧ foldl turn c evs = c)
  ∨ (∃ e, ends_with evs e ∧ foldl turn c evs = turn c e).
Proof.
  intros Hc. induction evs as [|e evs IH].
  { left. by split. }
  destruct (decide (e = Frame)) as [->|Hne].
  - cbn [foldl]. replace (turn c Frame) with c
      by (unfold turn; by rewrite Hc).
    destruct IH as [[Hall Hrun]|(e & (pre & post & -> & Hpre & Hne) & Hrun)].
    + left. split; [by constructor|done].
    + right. exists e. split; [|done].
      exists (Frame :: pre), post. split; [done|]. split; [by constructor|done].
  - right. exists e. split.
    + exists [], evs. by split.
    + cbn [foldl]. apply terminated_stays.
      unfold turn. rewrite Hc. by destruct e.
Qed.

Lemma ends_with_unique evs e1 e2 :
  ends_with evs e1 -> ends_with evs e2 -> e1 = e2.
Proof.
  intros (pre1 & post1 & -> & Hpre1 & Hne1) (pre2 & post2 & Heq & Hpre2 & Hne2).
  revert pre2 Heq Hpre2.
  induction Hpre1 as [|x pre1 <- _ IH]; intros pre2 Heq Hpre2.
  - destruct Hpre2 as [|y pre2 <- _]; cbn in Heq; [congruence|].
    congruence.
  - destruct Hpre2 as [|y pre2 <- Hpre2]; cbn in Heq.
    + congruence.
    + apply (IH pre2); [congruence|done].
Qed.

Lemma ends_with_not_frames evs e :
  ends_with evs e -> ¬ Forall (eq Frame) evs.
Proof.
  intros (pre & post & -> & _ & Hne) Hall.
  apply Forall_app in Hall as [_ Hall].
  apply Forall_cons in Hall as [Hall _]. by apply Hne.
Qed.

(** The run of a started call, by what the run-loop meets. *)
Lemma started_blocked b p evs :
  starts b p -> Forall (eq Frame) evs ->
  imgui_testapp_run b p evs
  = Call Running (create_context (create_window (set_guard true p))) None.
Proof.
  intros Hs Hall. unfold imgui_testapp_run.
  rewrite enter_started by done. by apply frames_keep_running.
Qed.

Lemma started_ended b p evs e :
  starts b p -> ends_with evs e ->
  imgui_testapp_run b p evs
  = Call Terminated p
         (Some (match e with
                | LoopAborted => inl UnexpectedTermination
                | _ => inr tt
                end)).
Proof.
  intros Hs He. unfold imgui_testapp_run.
  rewrite enter_started by done.
  destruct (running_split
              (Call Running
                    (create_context (create_window (set_guard true p))) None)
              evs eq_refl) as [[Hall _]|(e' & He' & ->)].
  { by destruct (ends_with_not_frames evs e). }
  rewrite (ends_with_unique evs e' e) by done.
  destruct He as (_ & _ & _ & _ & Hne), Hs as (Hg & _).
  unfold turn. cbn [phase_of proc].
  destruct e; [done| |]; by rewrite leave_restore.
Qed.

Lemma not_started_run b p evs :
  ¬ starts b p ->
  ∃ f, imgui_testapp_run b p evs = Call Terminated p (Some (inl f)).
Proof.
  intros Hn. unfold imgui_testapp_run.
  destruct (starts_or_not b p) as [Hg|[[Hg Hb]|Hs]]; [| |done].
  - exists ReentrantCall. rewrite enter_rejected by done.
    by apply terminated_stays.
  - exists InitFailure. rewrite enter_init_failure by done.
    by apply terminated_stays.
Qed.

(** While the window of a started run stays open the call has not returned. *)
Lemma blocked_while_window_open b p evs :
  starts b p -> Forall (eq Frame) evs ->
  returned (imgui_testapp_run b p evs) = None
  ∧ phase_of (imgui_testapp_run b p evs) = Running.
Proof. intros Hs Hall. by rewrite started_blocked. Qed.

(** C4: a call that has returned is a call whose run-loop is over: either
    the loop never started (the call was rejected or the backend failed to
    initialise), or it met the window closing or the loop aborting. *)
Theorem imgui_testapp_run_blocks (b : backend) (p : process)
    (evs : list event) :
  is_Some (returned (imgui_testapp_run b p evs)) ->
  phase_of (imgui_testapp_run b p evs) = Terminated
  ∧ (¬ starts b p ∨ ∃ e, ends_with evs e).
Proof.
  intros Hret.
  destruct (starts_or_not b p) as [Hg|[[Hg Hb]|Hs]].
  - split; [|left; intros (Hg' & _); congruence].
    destruct (not_started_run b p evs) as [f ->]; [|done].
    intros (Hg' & _); congruence.
  - assert (Hn : ¬ starts b p).
    { intros (_ & Hw & Hx). by rewrite Hw, Hx in Hb. }
    split; [|by left].
    by destruct (not_started_run b p evs) as [f ->].
  - destruct (running_split
                (Call Running
                      (create_context (create_window (set_guard true p)))
                      None)
                evs eq_refl) as [[Hall _]|(e & He & _)].
    + rewrite (started_blocked b p evs) in Hret by done.
      by destruct Hret.
    + split; [|right; by exists e].
      by rewrite (started_ended b p evs e).
Qed.

Lemma imgui_testapp_run_blocks_closed :
  is_Some (returned (imgui_testapp_run healthy quiet
                       [Frame; Frame; WindowClosed]))
  ∧ phase_of (imgui_testapp_run healthy quiet [Frame; Frame; WindowClosed])
    = Terminated
  ∧ (¬ starts healthy quiet ∨ ∃ e, ends_with [Frame; Frame; WindowClosed] e).
Proof.
  split; [vm_compute; eauto|].
  apply (imgui_testapp_run_blocks healthy quiet [Frame; Frame; WindowClosed]).
  vm_compute. eauto.
Defined.

(** C5: every failure kind (a call made while a run is in progress, a
    backend that does not initialise, a run-loop that aborts) ends the call
    with a non-zero status, and nothing unwinds through the caller. *)
Theorem failures_cross_as_status (b : backend) (p : process)
    (evs : list event) (f : failure) :
  fails b p evs f ->
  ended (imgui_testapp_run b p evs) = Some (inl f)
  ∧ (∃ z, returned (imgui_testapp_run b p evs) = Some (Status z) ∧ z ≠ 0%Z)
  ∧ ∀ f', returned (imgui_testapp_run b p evs) ≠ Some (Unwind f').
Proof.
  intros Hf.
  assert (Hrun : imgui_testapp_run b p evs
                 = Call Terminated p (Some (inl f))).
  { destruct Hf as [Hg|Hg Hb|Hs He]; unfold imgui_testapp_run.
    - rewrite enter_rejected by done. by apply terminated_stays.
    - rewrite enter_init_failure by done. by apply terminated_stays.
    - apply (started_ended b p evs LoopAborted Hs He). }
  rewrite Hrun. split; [done|]. split; [by exists 1%Z|done].
Qed.

Lemma failures_cross_as_status_headless :
  fails headless quiet [] InitFailure
  ∧ ended (imgui_testapp_run headless quiet []) = Some (inl InitFailure)
  ∧ (∃ z, returned (imgui_testapp_run headless quiet []) = Some (Status z)
          ∧ z ≠ 0%Z)
  ∧ ∀ f', returned (imgui_testapp_run headless quiet []) ≠ Some (Unwind f').
Proof.
  assert (H : fails headless quiet [] InitFailure)
    by (apply fails_initialization; reflexivity).
  split; [exact H|].
  exact (failures_cross_as_status headless quiet [] InitFailure H).
Defined.

(** Each failure kind does arise. *)
Example reentrant_call_fails :
  fails healthy busy [Frame] ReentrantCall.
Proof. by constructor. Qed.

Example aborted_loop_fails :
  fails healthy quiet [Frame; LoopAborted; Frame] UnexpectedTermination.
Proof.
  apply fails_unexpectedly; [done|].
  exists [Frame], [Frame]. split; [done|]. split; [by repeat constructor|done].
Qed.

(** C6: the status is 0 exactly when the run-loop started and its window was
    closed; a call that ends in any other way, such as one whose backend does
    not initialise, returns a status other than 0. *)
Theorem status_convention (b : backend) (p : process) (evs : list event) :
  (returned (imgui_testapp_run b p evs) = Some (Status 0)
   ↔ normal_exit b p evs)
  ∧ (∀ cr, returned (imgui_testapp_run b p evs) = Some cr ->
           ¬ normal_exit b p evs -> ∃ z, cr = Status z ∧ z ≠ 0%Z)
  ∧ (guard p = false -> window_ok b && graphics_ok b = false ->
     ∃ z, returned (imgui_testapp_run b p evs) = Some (Status z) ∧ z ≠ 0%Z).
Proof.
  assert (Hnot : ¬ starts b p ->
            ∃ f, imgui_testapp_run b p evs = Call Terminated p (Some (inl f)))
    by apply not_started_run.
  destruct (starts_or_not b p) as [Hg|[[Hg Hb]|Hs]].
  - destruct Hnot as [f Hrun]; [intros (Hg' & _); congruence|].
    rewrite Hrun. cbn. split; [|split].
    + split; [done|]. intros [(Hg' & _) _]. congruence.
    + intros cr [= <-] _. by exists 1%Z.
    + congruence.
  - destruct Hnot as [f Hrun].
    { intros (_ & Hw & Hx). by rewrite Hw, Hx in Hb. }
    rewrite Hrun. cbn. split; [|split].
    + split; [done|]. intros [(_ & Hw & Hx) _]. by rewrite Hw, Hx in Hb.
    + intros cr [= <-] _. by exists 1%Z.
    + intros _ _. by exists 1%Z.
  - destruct (running_split
                (Call Running
                      (create_context (create_window (set_guard true p)))
                      None)
                evs eq_refl) as [[Hall _]|(e & He & _)].
    + rewrite (started_blocked b p evs) by done. cbn. split; [|split].
      * split; [done|]. intros [_ Hc].
        by destruct (ends_with_not_frames evs WindowClosed).
      * done.
      * destruct Hs as (_ & -> & ->). done.
    + rewrite (started_ended b p evs e) by done.
      destruct He as (pre & post & -> & Hpre & Hne).
      split; [|split].
      * destruct e; [done| |].
        -- split; [intros _|done]. split; [done|]. by exists pre, post.
        -- split; [done|]. intros [_ Hc].
           assert (LoopAborted = WindowClosed); [|done].
           apply (ends_with_unique (pre ++ LoopAborted :: post)); [|done].
           by exists pre, post.
      * destruct e; [done| |]; cbn; intros cr [= <-] Hn.
        -- destruct Hn. split; [done|]. by exists pre, post.
        -- by exists 1%Z.
      * destruct Hs as (_ & -> & ->). done.
Qed.

(** C7: once the call has returned, whatever its status, the process is as
    it was before the call: window and graphics context are gone again and
    the guard is as it was. *)
Theorem resources_released (b : backend) (p : process) (evs : list event) :
  is_Some (returned (imgui_testapp_run b p evs)) ->
  proc (imgui_testapp_run b p evs) = p.
Proof.
  intros Hret.
  destruct (starts_or_not b p) as [Hg|[[Hg Hb]|Hs]].
  - destruct (not_started_run b p evs) as [f ->]; [|done].
    intros (Hg' & _); congruence.
  - destruct (not_started_run b p evs) as [f ->]; [|done].
    intros (_ & Hw & Hx). by rewrite Hw, Hx in Hb.
  - destruct (running_split
                (Call Running
                      (create_context (create_window (set_guard true p)))
                      None)
                evs eq_refl) as [[Hall _]|(e & He & _)].
    + rewrite (started_blocked b p evs) in Hret by done. by destruct Hret.
    + by rewrite (started_ended b p evs e).
Qed.

Lemma resources_released_after_abort :
  is_Some (returned (imgui_testapp_run healthy (Process 2 1 false)
                       [Frame; LoopAborted; Frame]))
  ∧ proc (imgui_testapp_run healthy (Process 2 1 false)
            [Frame; LoopAborted; Frame])
    = Process 2 1 false.
Proof.
  split; [vm_compute; eauto|].
  apply (resources_released healthy (Process 2 1 false)
           [Frame; LoopAborted; Frame]).
  vm_compute. eauto.
Defined.
